(** * SSTF I/O scheduler (modules/ssft_iosched/sstf-iosched.c)

    A shallow embedding of the elevator callbacks of the SSTF scheduler
    and the properties of its request queue: nearest-request selection,
    dispatch, merge, attach and teardown. *)

From Stdlib Require Import ZArith List Bool Lia Ascii Permutation.
Import ListNotations.
Open Scope Z_scope.

(** ** Machine integers

    [sector_t] is a 64-bit unsigned integer ([u64]); values are kept in
    [Z] and every conversion writes its wrap-around out. *)
Module Sector.

Definition modulus : Z := 2 ^ 64.
Definition half : Z := 2 ^ 63.

(** Conversion to [sector_t] (unsigned, modulo 2^64). *)
Definition wrap (x : Z) : Z := x mod modulus.

(** Conversion to [long long] (two's complement, 64 bits). *)
Definition signed (x : Z) : Z :=
  let u := wrap x in if u <? half then u else u - modulus.

(** [a - b] on two [sector_t] operands. *)
Definition sub (a b : Z) : Z := wrap (a - b).

(** The value of [(sector_t)-1], all ones. *)
Definition all_ones : Z := wrap (-1).

Definition in_range (x : Z) : Prop := 0 <= x < modulus.

End Sector.

(** Modelled from the spec: the macro [abs] is declared in the kernel
    header include/linux/kernel.h (Linux 4.13.9, the version the file is
    written for), which is not part of the module's source.  The spec
    calls its result the absolute difference of the two positions.  The
    macro receives the one [sector_t] value of the subtraction, converts
    an unsigned argument to the signed type of the same width
    ([signed long long __x = (x)]) and yields [__x < 0 ? -__x : __x] in
    that signed type; the kernel is built with wrapping signed
    arithmetic, so negating the least value gives the least value. *)
Definition abs (x : Z) : Z :=
  let __x := Sector.signed x in
  if __x <? 0 then Sector.signed (- __x) else __x.

(** ** Requests and the scheduler data *)

(** A [struct request]: the object's identity and the sector it starts
    at ([rq->__sector]).  Two records are the same request exactly when
    they are equal. *)
Record request : Type := mkRequest
  { rq_id : nat;
    __sector : Z }.

(** Modelled from the spec: [blk_rq_pos] is declared in
    include/linux/blkdev.h, not in the module; it reads the request's
    target location. *)
Definition blk_rq_pos (rq : request) : Z := __sector rq.

Definition request_eq_dec (a b : request) : {a = b} + {a <> b}.
Proof. decide equality; [apply Z.eq_dec | apply Nat.eq_dec]. Defined.

(** [struct sstf_data]: the circular list [queue] read from its head
    onwards, and the last dispatched position. *)
Record sstf_data : Type := mkData
  { queue : list request;
    head_position : Z }.

(** *** The list primitives of include/linux/list.h on this view *)

(** [list_add_tail]: link the entry before the list head, i.e. last. *)
Definition list_add_tail (entry : request) (l : list request) : list request :=
  l ++ [entry].

(** [list_del_init]: unlink the entry from the list it is on.  An entry
    that is not on [l] leaves [l] as it is. *)
Fixpoint list_del_init (entry : request) (l : list request) : list request :=
  match l with
  | [] => []
  | x :: l' => if request_eq_dec entry x then l' else x :: list_del_init entry l'
  end.

Definition list_empty (l : list request) : bool :=
  match l with [] => true | _ :: _ => false end.

(** ** The host's request queue *)

Inductive kmsg_kind : Type := Kadd | Kdsp.

(** One [printk] line of the module: "[SSTF] add|dsp %c %llu". *)
Record kmsg : Type := mkMsg
  { k_kind : kmsg_kind;
    k_direction : ascii;
    k_pos : Z }.

Record elevator_queue : Type := mkElevator
  { elevator_data : sstf_data }.

(** The fields of [struct request_queue] the module touches:
    [q->elevator] (NULL when no elevator is attached), the dispatch list
    the requests are handed to, and the kernel log. *)
Record request_queue : Type := mkQueue
  { elevator : option elevator_queue;
    queue_head : list request;
    klog : list kmsg }.

(** A request queue with scheduler data [nd] attached. *)
Definition attached (nd : sstf_data) (dl : list request) (log : list kmsg)
  : request_queue :=
  {| elevator := Some {| elevator_data := nd |};
     queue_head := dl;
     klog := log |}.

(** Modelled from the spec: [elv_dispatch_sort] lives in block/elevator.c,
    outside the module; the spec has it hand the chosen request over to
    the block layer's dispatch sink.  The hand-overs are recorded in the
    order they happen. *)
Definition elv_dispatch_sort (dl : list request) (rq : request) : list request :=
  dl ++ [rq].

Definition printk (log : list kmsg) (m : kmsg) : list kmsg := log ++ [m].

Definition ENOMEM : Z := 12.

(** ** The module's functions *)

(** [sstf_merged_requests]: [next] has been merged into [rq]; unlink it.
    The function reads neither [q->elevator] nor [rq]:
    [list_del_init(&next->queuelist)] takes [next] off the list it is
    linked on, be it the scheduler's queue or the dispatch list, and
    changes no list when [next] is linked on neither.  An entry is linked
    on one list at a time; the scheduler's queue is looked at first. *)
Definition sstf_merged_requests (q : request_queue) (rq next : request)
  : request_queue :=
  let off_dispatch_list :=
    {| elevator := elevator q;
       queue_head := list_del_init next (queue_head q);
       klog := klog q |} in
  match elevator q with
  | None => off_dispatch_list
  | Some e =>
      let nd := elevator_data e in
      if in_dec request_eq_dec next (queue nd) then
        {| elevator :=
             Some {| elevator_data :=
                       {| queue := list_del_init next (queue nd);
                          head_position := head_position nd |} |};
           queue_head := queue_head q;
           klog := klog q |}
      else off_dispatch_list
  end.

(** The distance computed in the loop body:
    [sector_t distance = abs(blk_rq_pos(rq) - nd->head_position)]. *)
Definition distance (head : Z) (rq : request) : Z :=
  Sector.wrap (abs (Sector.sub (blk_rq_pos rq) head)).

(** One iteration of [list_for_each_entry] on the loop variables
    [(min_distance, next_rq)]. *)
Definition scan_step (head : Z) (st : Z * option request) (rq : request)
  : Z * option request :=
  let '(min_distance, next_rq) := st in
  let distance := distance head rq in
  if (min_distance =? Sector.all_ones) || (distance <? min_distance)
  then (distance, Some rq)
  else (min_distance, next_rq).

(** [sstf_find_next_request]: [NULL] is [None]. *)
Definition sstf_find_next_request (nd : sstf_data) : option request :=
  snd (fold_left (scan_step (head_position nd)) (queue nd)
         (Sector.all_ones, None)).

(** [sstf_dispatch]: the new request queue and the returned [int];
    [None] stands for the fault of dereferencing a NULL [q->elevator].
    The argument [force] is not read. *)
Definition sstf_dispatch (q : request_queue) (force : Z)
  : option (request_queue * Z) :=
  match elevator q with
  | None => None
  | Some e =>
      let nd := elevator_data e in
      let direction := "R"%char in
      match sstf_find_next_request nd with
      | Some rq =>
          Some ({| elevator :=
                     Some {| elevator_data :=
                               {| queue := list_del_init rq (queue nd);
                                  head_position := blk_rq_pos rq |} |};
                   queue_head := elv_dispatch_sort (queue_head q) rq;
                   klog := printk (klog q)
                             (mkMsg Kdsp direction (blk_rq_pos rq)) |}, 1)
      | None => Some (q, 0)
      end
  end.

(** [sstf_add_request]. *)
Definition sstf_add_request (q : request_queue) (rq : request)
  : option request_queue :=
  match elevator q with
  | None => None
  | Some e =>
      let nd := elevator_data e in
      let direction := "R"%char in
      Some {| elevator :=
                Some {| elevator_data :=
                          {| queue := list_add_tail rq (queue nd);
                             head_position := head_position nd |} |};
              queue_head := queue_head q;
              klog := printk (klog q)
                        (mkMsg Kadd direction (blk_rq_pos rq)) |}
  end.

(** [sstf_init_queue].  The two allocations ([elevator_alloc] and
    [kmalloc_node]) succeed or fail as the arguments say; the elevator
    type [e] only feeds [elevator_alloc].  The result is the returned
    [int] and the request queue afterwards; an [eq] whose data could not
    be allocated is dropped again ([kobject_put]) and never installed. *)
Definition sstf_init_queue (q : request_queue)
    (elevator_alloc_ok kmalloc_ok : bool) : Z * request_queue :=
  if negb elevator_alloc_ok then (- ENOMEM, q)
  else if negb kmalloc_ok then (- ENOMEM, q)
  else
    let nd := {| queue := []; head_position := 0 |} in
    (0, {| elevator := Some {| elevator_data := nd |};
           queue_head := queue_head q;
           klog := klog q |}).

(** What a call of [sstf_exit_queue] ends in. *)
Inductive exit_outcome : Type :=
| Exit_BUG      (* BUG_ON fired: the kernel stops the calling context *)
| Exit_freed.   (* the assertion passed and [nd] was released *)

Definition sstf_exit_queue (e : elevator_queue) : exit_outcome :=
  let nd := elevator_data e in
  if negb (list_empty (queue nd)) then Exit_BUG else Exit_freed.

(** ** The host's side: drivers used to state the properties *)

(** The state [sstf_init_queue] installs. *)
Definition fresh_data : sstf_data := {| queue := []; head_position := 0 |}.

(** A request queue with nothing attached, nothing dispatched, an empty log. *)
Definition bare_queue : request_queue :=
  {| elevator := None; queue_head := []; klog := [] |}.

(** The scheduler data behind [q->elevator->elevator_data], if any. *)
Definition sched_data (q : request_queue) : option sstf_data :=
  option_map elevator_data (elevator q).

(** The request a dispatch call put on the dispatch list, if any. *)
Definition handed_over (q q' : request_queue) : option request :=
  nth_error (queue_head q') (length (queue_head q)).

(** Submit the requests of [rqs] one after the other. *)
Fixpoint add_all (q : request_queue) (rqs : list request) : option request_queue :=
  match rqs with
  | [] => Some q
  | rq :: rqs' =>
      match sstf_add_request q rq with
      | Some q' => add_all q' rqs'
      | None => None
      end
  end.

(** Requests for the locations of [locs], numbered from [n] on. *)
Fixpoint requests_at (n : nat) (locs : list Z) : list request :=
  match locs with
  | [] => []
  | l :: locs' => mkRequest n l :: requests_at (S n) locs'
  end.

(** Call [sstf_dispatch] until it returns 0, at most [fuel] times.  The
    result is the list of (queue before, queue after) of every call that
    returned non-zero, and the queue the loop stopped at. *)
Fixpoint dispatch_all (force : Z) (fuel : nat) (q : request_queue)
  : list (request_queue * request_queue) * request_queue :=
  match fuel with
  | O => ([], q)
  | S fuel' =>
      match sstf_dispatch q force with
      | None => ([], q)
      | Some (q', ret) =>
          if ret =? 0 then ([], q')
          else let '(tr, qf) := dispatch_all force fuel' q' in ((q, q') :: tr, qf)
      end
  end.

(** Call [sstf_dispatch] [n] times, collecting the returned values. *)
Fixpoint dispatch_times (force : Z) (n : nat) (q : request_queue)
  : option (list Z * request_queue) :=
  match n with
  | O => Some ([], q)
  | S n' =>
      match sstf_dispatch q force with
      | None => None
      | Some (q', ret) =>
          match dispatch_times force n' q' with
          | None => None
          | Some (rets, qf) => Some (ret :: rets, qf)
          end
      end
  end.

(** The distance as the spec measures it: |location - head position|. *)
Definition seek (head : Z) (rq : request) : Z :=
  Z.abs (blk_rq_pos rq - head).

(** The seek of one successful dispatch: from the head position before
    the call to the location of the request handed over. *)
Definition seek_of (o : request_queue * request_queue) : option Z :=
  match sched_data (fst o), handed_over (fst o) (snd o) with
  | Some nd, Some rq => Some (seek (head_position nd) rq)
  | _, _ => None
  end.

Fixpoint seeks (tr : list (request_queue * request_queue)) : list Z :=
  match tr with
  | [] => []
  | o :: tr' =>
      match seek_of o with
      | Some d => d :: seeks tr'
      | None => seeks tr'
      end
  end.

(** A list of numbers that never goes down. *)
Fixpoint nondecreasing (l : list Z) : Prop :=
  match l with
  | [] => True
  | x :: l' =>
      match l' with
      | [] => True
      | y :: _ => x <= y /\ nondecreasing l'
      end
  end.

(** One successful dispatch [o] took a pending request that no other
    pending request beat under [measure], and left the head on it. *)
Definition nearest_dispatch (measure : Z -> request -> Z)
    (o : request_queue * request_queue) : Prop :=
  exists nd rq dl log,
    fst o = attached nd dl log /\
    handed_over (fst o) (snd o) = Some rq /\
    In rq (queue nd) /\
    (forall x, In x (queue nd) ->
               measure (head_position nd) rq <= measure (head_position nd) x) /\
    sched_data (snd o) =
    Some {| queue := list_del_init rq (queue nd);
            head_position := blk_rq_pos rq |}.

(** Head and pending locations all lie in the lower half of the
    [sector_t] range, so no two of them are more than 2^63 apart. *)
Definition within_half (nd : sstf_data) : Prop :=
  0 <= head_position nd <= Sector.half /\
  Forall (fun rq => 0 <= blk_rq_pos rq <= Sector.half) (queue nd).

(** Some pending request sits at the sentinel distance, and the scan
    returns an entry that comes after another entry that is no farther. *)
Definition sentinel_overrides (nd : sstf_data) : Prop :=
  exists clash l1 early l2 late l3,
    In clash (queue nd) /\
    distance (head_position nd) clash = Sector.all_ones /\
    queue nd = l1 ++ early :: l2 ++ late :: l3 /\
    distance (head_position nd) early <= distance (head_position nd) late /\
    sstf_find_next_request nd = Some late.

(** ** The selection as the spec words it

    "Returns the handle with minimum distance; on equal minimum distance
    prefer the first-encountered entry": a scan that keeps the best entry
    so far and replaces it only by a strictly nearer one, with no
    sentinel value. *)
Fixpoint nearest_from (head : Z) (best : request) (l : list request) : request :=
  match l with
  | [] => best
  | rq :: l' =>
      nearest_from head
        (if distance head rq <? distance head best then rq else best) l'
  end.

Definition spec_find_nearest (nd : sstf_data) : option request :=
  match queue nd with
  | [] => None
  | rq :: l => Some (nearest_from (head_position nd) rq l)
  end.

(** [rq] is the first entry of [l] at the least distance under
    [measure]: the entries before it are strictly farther from [head],
    the entries after it at least as far. *)
Definition first_nearest (measure : Z -> request -> Z)
    (head : Z) (l : list request) (rq : request) : Prop :=
  exists l1 l2,
    l = l1 ++ rq :: l2 /\
    (forall x, In x l1 -> measure head rq < measure head x) /\
    (forall x, In x l2 -> measure head rq <= measure head x).

(** ** Whole runs of the scheduler *)

(** The [printk] line of [sstf_add_request], resp. of a successful
    [sstf_dispatch], for the request [rq]. *)
Definition add_line (rq : request) : kmsg :=
  mkMsg Kadd "R"%char (blk_rq_pos rq).

Definition dsp_line (rq : request) : kmsg :=
  mkMsg Kdsp "R"%char (blk_rq_pos rq).

(** [drains nd out]: dispatching from the scheduler data [nd] until the
    scan finds nothing takes the requests of [out], in that order; each
    step is the scan and the two updates of [sstf_dispatch]. *)
Inductive drains : sstf_data -> list request -> Prop :=
| drains_idle (nd : sstf_data) :
    sstf_find_next_request nd = None ->
    drains nd []
| drains_step (nd : sstf_data) (rq : request) (out : list request) :
    sstf_find_next_request nd = Some rq ->
    drains {| queue := list_del_init rq (queue nd);
              head_position := blk_rq_pos rq |} out ->
    drains nd (rq :: out).

(** What [sstf_exit_queue] ends in on the elevator installed in [q]. *)
Definition exit_of (q : request_queue) : option exit_outcome :=
  option_map sstf_exit_queue (elevator q).

(** The distance between two sectors on the ring of 2^64 sectors: the
    shorter of the two ways round. *)
Definition ring_distance (a b : Z) : Z :=
  let x := Sector.wrap (a - b) in
  Z.min x (Sector.modulus - x).

(** * Properties *)

(** ** Arithmetic of the distance *)

Lemma modulus_eq : Sector.modulus = 18446744073709551616.
Proof. reflexivity. Qed.

Lemma half_eq : Sector.half = 9223372036854775808.
Proof. reflexivity. Qed.

Lemma all_ones_eq : Sector.all_ones = 18446744073709551615.
Proof. reflexivity. Qed.

(** Linear arithmetic once the constants of the 64-bit range are spelt out. *)
Ltac sector_lia :=
  unfold Sector.in_range in *;
  rewrite ?modulus_eq, ?half_eq, ?all_ones_eq in *;
  lia.

Lemma wrap_range (x : Z) : 0 <= Sector.wrap x < Sector.modulus.
Proof. unfold Sector.wrap. apply Z.mod_pos_bound. reflexivity. Qed.

Lemma wrap_small (x : Z) : 0 <= x < Sector.modulus -> Sector.wrap x = x.
Proof. intros H. unfold Sector.wrap. now apply Z.mod_small. Qed.

Lemma wrap_below (x : Z) :
  - Sector.modulus <= x < 0 -> Sector.wrap x = x + Sector.modulus.
Proof.
  intros H. unfold Sector.wrap.
  symmetry. apply Z.mod_unique with (q := -1); [left|]; lia.
Qed.

Lemma signed_range (x : Z) : - Sector.half <= Sector.signed x < Sector.half.
Proof.
  unfold Sector.signed. pose proof (wrap_range x) as H.
  destruct (Z.ltb_spec (Sector.wrap x) Sector.half); sector_lia.
Qed.

Lemma signed_low (x : Z) : 0 <= x < Sector.half -> Sector.signed x = x.
Proof.
  intros H. unfold Sector.signed.
  rewrite wrap_small by sector_lia.
  destruct (Z.ltb_spec x Sector.half); lia.
Qed.

Lemma signed_high (x : Z) :
  Sector.half <= x < Sector.modulus -> Sector.signed x = x - Sector.modulus.
Proof.
  intros H. unfold Sector.signed.
  rewrite wrap_small by sector_lia.
  destruct (Z.ltb_spec x Sector.half); lia.
Qed.

(** The macro's result is the magnitude of the signed value, except at
    the least signed value, which it returns unchanged. *)
Lemma abs_cases (x : Z) :
  (Sector.signed x = - Sector.half /\ abs x = - Sector.half) \/
  (- Sector.half < Sector.signed x /\ abs x = Z.abs (Sector.signed x)).
Proof.
  unfold abs. pose proof (signed_range x) as H.
  destruct (Z.ltb_spec (Sector.signed x) 0) as [Hn | Hp].
  - destruct (Z.eq_dec (Sector.signed x) (- Sector.half)) as [E | NE].
    + left. split; [exact E|]. rewrite E, Z.opp_involutive. reflexivity.
    + right. split; [lia|]. rewrite signed_low by lia. lia.
  - right. split; [sector_lia | lia].
Qed.

(** What the assignment [sector_t distance = abs(x)] stores, for a
    [sector_t] value [x]: [x] itself in the lower half (2^63 included),
    its two's complement [2^64 - x] above. *)
Lemma stored_abs (x : Z) :
  Sector.in_range x ->
  Sector.wrap (abs x) = if x <=? Sector.half then x else Sector.modulus - x.
Proof.
  intros Hx.
  destruct (Z.leb_spec x Sector.half) as [Hle | Hgt].
  - destruct (Z.eq_dec x Sector.half) as [-> | NE]; [reflexivity|].
    unfold abs. rewrite signed_low by sector_lia.
    destruct (Z.ltb_spec x 0); [sector_lia|].
    apply wrap_small. sector_lia.
  - unfold abs. rewrite signed_high by sector_lia.
    destruct (Z.ltb_spec (x - Sector.modulus) 0); [|sector_lia].
    rewrite signed_low by sector_lia.
    rewrite wrap_small by sector_lia. lia.
Qed.

(** The computed distance is a [sector_t] of at most 2^63. *)
Lemma distance_bound (head : Z) (rq : request) :
  0 <= distance head rq <= Sector.half.
Proof.
  unfold distance, Sector.sub.
  pose proof (wrap_range (blk_rq_pos rq - head)) as R.
  rewrite stored_abs by exact R.
  destruct (Z.leb_spec (Sector.wrap (blk_rq_pos rq - head)) Sector.half);
    sector_lia.
Qed.

Lemma distance_below_all_ones (head : Z) (rq : request) :
  distance head rq < Sector.all_ones.
Proof. pose proof (distance_bound head rq) as H. sector_lia. Qed.

(** Where the two positions are [sector_t] values at most 2^63 apart, the
    computed distance is their absolute difference. *)
Lemma distance_exact (head : Z) (rq : request) :
  Sector.in_range head -> Sector.in_range (blk_rq_pos rq) ->
  seek head rq <= Sector.half ->
  distance head rq = seek head rq.
Proof.
  unfold seek. intros Hh Hp Hd. unfold distance, Sector.sub.
  rewrite stored_abs by apply wrap_range.
  set (d := blk_rq_pos rq - head) in *.
  destruct (Z.le_gt_cases 0 d) as [Hpos | Hneg].
  - rewrite (wrap_small d) by sector_lia.
    destruct (Z.leb_spec d Sector.half); lia.
  - rewrite (wrap_below d) by sector_lia.
    destruct (Z.leb_spec (d + Sector.modulus) Sector.half); sector_lia.
Qed.

(** Two [sector_t] positions more than 2^63 apart: the subtraction wraps
    and the computed distance is the way round the other side. *)
Lemma distance_far (head : Z) (rq : request) :
  Sector.in_range head -> Sector.in_range (blk_rq_pos rq) ->
  Sector.half < seek head rq ->
  distance head rq = Sector.modulus - seek head rq.
Proof.
  unfold seek. intros Hh Hp Hd. unfold distance, Sector.sub.
  rewrite stored_abs by apply wrap_range.
  set (d := blk_rq_pos rq - head) in *.
  destruct (Z.le_gt_cases 0 d) as [Hpos | Hneg].
  - rewrite (wrap_small d) by sector_lia.
    destruct (Z.leb_spec d Sector.half); lia.
  - rewrite (wrap_below d) by sector_lia.
    destruct (Z.leb_spec (d + Sector.modulus) Sector.half); sector_lia.
Qed.

(** The subtraction has already wrapped when [abs] sees its result: the
    pairs (head 0, location 1) and (head 2^64 - 1, location 0) both give
    it the value 1, so whatever a one-argument [abs] returns, one of the
    two computed distances is not the absolute difference. *)
Lemma wrapped_difference_forgets (f : Z -> Z) :
  exists head rq,
    Sector.in_range head /\
    Sector.in_range (blk_rq_pos rq) /\
    Sector.wrap (f (Sector.sub (blk_rq_pos rq) head)) <> seek head rq.
Proof.
  destruct (Z.eq_dec (Sector.wrap (f 1)) 1) as [E | NE].
  - exists 18446744073709551615, (mkRequest 0 0).
    split; [sector_lia|]. split; [simpl; sector_lia|].
    change (Sector.sub (blk_rq_pos (mkRequest 0 0)) 18446744073709551615)
      with 1.
    rewrite E. discriminate.
  - exists 0, (mkRequest 0 1).
    split; [sector_lia|]. split; [simpl; sector_lia|].
    exact NE.
Qed.

(** ** The scan of [sstf_find_next_request] *)

(** Once an entry has been taken, the sentinel test is never true again
    and the loop is the sentinel-free scan. *)
Lemma scan_started (head : Z) (l : list request) (best : request) :
  fold_left (scan_step head) l (distance head best, Some best) =
  (distance head (nearest_from head best l),
   Some (nearest_from head best l)).
Proof.
  revert best. induction l as [| rq l IH]; intros best; simpl.
  - reflexivity.
  - assert ((distance head best =? Sector.all_ones) = false) as ->.
    { apply Z.eqb_neq. pose proof (distance_below_all_ones head best). lia. }
    simpl. destruct (distance head rq <? distance head best); apply IH.
Qed.

Lemma find_next_request_spec (nd : sstf_data) :
  sstf_find_next_request nd = spec_find_nearest nd.
Proof.
  unfold sstf_find_next_request, spec_find_nearest.
  destruct (queue nd) as [| rq l]; simpl.
  - reflexivity.
  - rewrite scan_started. reflexivity.
Qed.

Lemma nearest_from_first (head : Z) (l : list request) (best : request) :
  first_nearest distance head (best :: l) (nearest_from head best l).
Proof.
  revert best. induction l as [| rq l IH]; intros best; simpl.
  - exists [], []. repeat split; simpl; intros x [].
  - destruct (Z.ltb_spec (distance head rq) (distance head best)) as [Hlt | Hge].
    + destruct (IH rq) as (l1 & l2 & E & Hb & Ha).
      set (r := nearest_from head rq l) in *.
      assert (distance head r <= distance head rq) as Hr.
      { assert (In rq (l1 ++ r :: l2)) as Hin by (rewrite <- E; now left).
        apply in_app_or in Hin. destruct Hin as [Hin | [-> | Hin]].
        - specialize (Hb _ Hin). lia.
        - lia.
        - now apply Ha. }
      exists (best :: l1), l2. repeat split.
      * simpl. now rewrite E.
      * intros x [<- | Hin]; [lia | now apply Hb].
      * exact Ha.
    + destruct (IH best) as (l1 & l2 & E & Hb & Ha).
      set (r := nearest_from head best l) in *.
      destruct l1 as [| b l1]; simpl in E; injection E as E1 E2.
      * exists [], (rq :: l). repeat split.
        -- simpl. now rewrite <- E1.
        -- intros x [].
        -- intros x [<- | Hin]; [rewrite <- E1; lia|].
           apply Ha. now rewrite <- E2.
      * subst b. exists (best :: rq :: l1), l2. repeat split.
        -- simpl. now rewrite E2.
        -- assert (distance head r < distance head best) by (apply Hb; now left).
           intros x [<- | [<- | Hin]]; [lia | lia |].
           apply Hb. now right.
        -- exact Ha.
Qed.

Lemma find_next_request_first (nd : sstf_data) (rq : request) :
  sstf_find_next_request nd = Some rq ->
  first_nearest distance (head_position nd) (queue nd) rq.
Proof.
  rewrite find_next_request_spec. unfold spec_find_nearest.
  destruct (queue nd) as [| r l]; [discriminate|].
  intros [= <-]. apply nearest_from_first.
Qed.

Lemma find_next_request_some (nd : sstf_data) :
  queue nd <> [] -> exists rq, sstf_find_next_request nd = Some rq.
Proof.
  rewrite find_next_request_spec. unfold spec_find_nearest.
  destruct (queue nd) as [| r l]; [congruence | eauto].
Qed.

Lemma find_next_request_none (nd : sstf_data) :
  queue nd = [] -> sstf_find_next_request nd = None.
Proof. unfold sstf_find_next_request. now intros ->. Qed.

Lemma first_nearest_least (head : Z) (l : list request) (rq : request) :
  first_nearest distance head l rq ->
  forall x, In x l -> distance head rq <= distance head x.
Proof.
  intros (l1 & l2 & -> & Hb & Ha) x Hin.
  apply in_app_or in Hin. destruct Hin as [Hin | [<- | Hin]].
  - specialize (Hb _ Hin). lia.
  - lia.
  - now apply Ha.
Qed.

Lemma first_nearest_not_before (head : Z) (l1 : list request) (rq : request) :
  (forall x, In x l1 -> distance head rq < distance head x) -> ~ In rq l1.
Proof. intros Hb Hin. specialize (Hb _ Hin). lia. Qed.

(** Within the lower half the computed distance is the spec's. *)
Lemma within_half_exact (nd : sstf_data) (rq : request) :
  within_half nd -> In rq (queue nd) ->
  distance (head_position nd) rq = seek (head_position nd) rq.
Proof.
  intros [Hh Hq] Hin.
  rewrite Forall_forall in Hq. specialize (Hq _ Hin).
  apply distance_exact; unfold seek; sector_lia.
Qed.

Lemma first_nearest_within_half (nd : sstf_data) (rq : request) :
  within_half nd ->
  first_nearest distance (head_position nd) (queue nd) rq ->
  first_nearest seek (head_position nd) (queue nd) rq.
Proof.
  intros Hw (l1 & l2 & E & Hb & Ha).
  assert (forall x, In x (queue nd) ->
                    distance (head_position nd) x = seek (head_position nd) x)
    as Hx by (intros x Hin; now apply within_half_exact).
  assert (In rq (queue nd)) as Hrq
    by (rewrite E; apply in_or_app; right; now left).
  exists l1, l2. split; [exact E|]. split.
  - intros x Hin. rewrite <- !Hx; [now apply Hb | |exact Hrq].
    rewrite E. apply in_or_app. now left.
  - intros x Hin. rewrite <- !Hx; [now apply Ha | |exact Hrq].
    rewrite E. apply in_or_app. right. now right.
Qed.

(** ** Unlinking an entry *)

Lemma list_del_init_split (entry : request) (l1 l2 : list request) :
  ~ In entry l1 -> list_del_init entry (l1 ++ entry :: l2) = l1 ++ l2.
Proof.
  induction l1 as [| x l1 IH]; simpl; intros Hn.
  - destruct (request_eq_dec entry entry); congruence.
  - destruct (request_eq_dec entry x) as [-> | NE].
    + exfalso. apply Hn. now left.
    + f_equal. apply IH. intros Hin. apply Hn. now right.
Qed.

Lemma in_first_split (entry : request) (l : list request) :
  In entry l -> exists l1 l2, l = l1 ++ entry :: l2 /\ ~ In entry l1.
Proof.
  induction l as [| x l IH]; simpl; [intros []|].
  destruct (request_eq_dec entry x) as [-> | NE].
  - intros _. exists [], l. split; [reflexivity | intros []].
  - intros [E | Hin]; [congruence|].
    destruct (IH Hin) as (l1 & l2 & -> & Hn).
    exists (x :: l1), l2. split; [reflexivity|].
    intros [E | H]; [congruence | contradiction].
Qed.

Lemma nodup_split_absent (entry : request) (l1 l2 : list request) :
  NoDup (l1 ++ entry :: l2) -> ~ In entry (l1 ++ l2).
Proof. intros H. now apply NoDup_remove_2. Qed.

(** ** [sstf_dispatch] on an attached queue *)

Lemma dispatch_some (nd : sstf_data) (dl : list request) (log : list kmsg)
    (force : Z) (rq : request) :
  sstf_find_next_request nd = Some rq ->
  sstf_dispatch (attached nd dl log) force =
  Some (attached {| queue := list_del_init rq (queue nd);
                    head_position := blk_rq_pos rq |}
          (dl ++ [rq])
          (log ++ [mkMsg Kdsp "R"%char (blk_rq_pos rq)]), 1).
Proof. intros H. unfold sstf_dispatch, attached. simpl. now rewrite H. Qed.

Lemma dispatch_idle (nd : sstf_data) (dl : list request) (log : list kmsg)
    (force : Z) :
  queue nd = [] ->
  sstf_dispatch (attached nd dl log) force = Some (attached nd dl log, 0).
Proof.
  intros H. unfold sstf_dispatch, attached. simpl.
  now rewrite (find_next_request_none nd H).
Qed.

(** A successful dispatch unlinks the entry found, which no pending entry
    beats and which no earlier entry equals, and moves the head onto it. *)
Lemma dispatch_pending (nd : sstf_data) (dl : list request) (log : list kmsg)
    (force : Z) (rq : request) :
  sstf_find_next_request nd = Some rq ->
  exists l1 l2,
    queue nd = l1 ++ rq :: l2 /\
    ~ In rq l1 /\
    (forall x, In x (queue nd) ->
               distance (head_position nd) rq <= distance (head_position nd) x) /\
    sstf_dispatch (attached nd dl log) force =
    Some (attached {| queue := l1 ++ l2; head_position := blk_rq_pos rq |}
            (dl ++ [rq])
            (log ++ [mkMsg Kdsp "R"%char (blk_rq_pos rq)]), 1).
Proof.
  intros Hrq.
  pose proof (find_next_request_first nd rq Hrq) as Hfirst.
  pose proof (first_nearest_least _ _ _ Hfirst) as Hleast.
  destruct Hfirst as (l1 & l2 & E & Hb & _).
  pose proof (first_nearest_not_before _ _ _ Hb) as Hn.
  exists l1, l2.
  split; [exact E|].
  split; [exact Hn|].
  split; [exact Hleast|].
  rewrite (dispatch_some nd dl log force rq Hrq), E.
  now rewrite list_del_init_split.
Qed.

(** ** [sstf_merged_requests] on an attached queue *)

Lemma merged_requests_pending (nd : sstf_data) (dl : list request)
    (log : list kmsg) (rq next : request) :
  In next (queue nd) ->
  sstf_merged_requests (attached nd dl log) rq next =
  attached {| queue := list_del_init next (queue nd);
              head_position := head_position nd |} dl log.
Proof.
  intros Hin. unfold sstf_merged_requests, attached. simpl.
  destruct (in_dec request_eq_dec next (queue nd)); [reflexivity | contradiction].
Qed.

Lemma merged_requests_not_pending (nd : sstf_data) (dl : list request)
    (log : list kmsg) (rq next : request) :
  ~ In next (queue nd) ->
  sstf_merged_requests (attached nd dl log) rq next =
  attached nd (list_del_init next dl) log.
Proof.
  intros Hn. unfold sstf_merged_requests, attached. simpl.
  destruct (in_dec request_eq_dec next (queue nd)); [contradiction | reflexivity].
Qed.

(** ** Adding and draining *)

Lemma add_all_attached (rqs : list request) :
  forall (nd : sstf_data) (dl : list request) (log : list kmsg),
    add_all (attached nd dl log) rqs =
    Some (attached {| queue := queue nd ++ rqs;
                      head_position := head_position nd |}
            dl
            (log ++ map (fun rq => mkMsg Kadd "R"%char (blk_rq_pos rq)) rqs)).
Proof.
  induction rqs as [| rq rqs IH]; intros [qu hd] dl log; simpl.
  - now rewrite !app_nil_r.
  - unfold sstf_add_request. simpl.
    change (add_all
              (attached {| queue := list_add_tail rq qu; head_position := hd |}
                 dl (printk log (mkMsg Kadd "R"%char (blk_rq_pos rq)))) rqs
            = Some (attached {| queue := qu ++ rq :: rqs; head_position := hd |}
                      dl
                      (log ++
                       mkMsg Kadd "R"%char (blk_rq_pos rq)
                       :: map (fun rq => mkMsg Kadd "R"%char (blk_rq_pos rq)) rqs))).
    rewrite IH. simpl. unfold list_add_tail, printk.
    now rewrite <- !app_assoc.
Qed.

Lemma requests_at_length (locs : list Z) :
  forall n, length (requests_at n locs) = length locs.
Proof. induction locs as [| l locs IH]; intros n; simpl; [|rewrite IH]; reflexivity. Qed.

Lemma requests_at_positions (locs : list Z) (P : Z -> Prop) :
  Forall P locs ->
  forall n, Forall (fun rq => P (blk_rq_pos rq)) (requests_at n locs).
Proof.
  induction 1 as [| l locs Hl _ IH]; intros n; simpl; constructor.
  - exact Hl.
  - apply IH.
Qed.

Lemma within_half_dispatch (nd : sstf_data) (rq : request) (l1 l2 : list request) :
  within_half nd -> queue nd = l1 ++ rq :: l2 ->
  within_half {| queue := l1 ++ l2; head_position := blk_rq_pos rq |}.
Proof.
  intros [Hh Hq] E. rewrite E in Hq.
  apply Forall_app in Hq. destruct Hq as [H1 H2].
  inversion H2 as [| ? ? Hrq H2']; subst.
  split; simpl; [exact Hrq|].
  apply Forall_app. split; assumption.
Qed.

(** The dispatch loop empties an attached queue in as many successful
    calls as there are pending requests, each taking a nearest one. *)
Lemma dispatch_all_attached (force : Z) (fuel : nat) :
  forall (nd : sstf_data) (dl : list request) (log : list kmsg),
    (length (queue nd) <= fuel)%nat ->
    exists tr nd' dl' log',
      dispatch_all force fuel (attached nd dl log) = (tr, attached nd' dl' log') /\
      queue nd' = [] /\
      length tr = length (queue nd) /\
      Forall (nearest_dispatch distance) tr /\
      (within_half nd -> Forall (nearest_dispatch seek) tr).
Proof.
  induction fuel as [| fuel IH]; intros nd dl log Hlen.
  - exists [], nd, dl, log. simpl.
    destruct (queue nd); simpl in *; [|lia].
    repeat split; constructor.
  - destruct (queue nd) as [| r0 l0] eqn:Eq.
    + exists [], nd, dl, log. simpl.
      rewrite (dispatch_idle nd dl log force Eq). simpl.
      repeat split; try assumption; constructor.
    + assert (queue nd <> []) as Hne by congruence.
      destruct (find_next_request_some nd Hne) as [rq Hrq].
      destruct (dispatch_pending nd dl log force rq Hrq)
        as (l1 & l2 & E & Hn & Hleast & Hd).
      set (nd1 := {| queue := l1 ++ l2; head_position := blk_rq_pos rq |}) in *.
      assert (length (queue nd) = S (length (l1 ++ l2))) as Hl.
      { rewrite E, !length_app. simpl. lia. }
      destruct (IH nd1 (dl ++ [rq])
                  (log ++ [mkMsg Kdsp "R"%char (blk_rq_pos rq)]))
        as (tr & nd' & dl' & log' & Hrun & Hq' & Hlt & Hall & Hhalf).
      { simpl. rewrite Eq in Hl. simpl in *. lia. }
      assert (In rq (queue nd)) as Hin.
      { rewrite E. apply in_or_app. right. now left. }
      assert (forall measure,
                 (forall x, In x (queue nd) ->
                            measure (head_position nd) rq
                            <= measure (head_position nd) x) ->
                 nearest_dispatch measure
                   (attached nd dl log,
                    attached nd1 (dl ++ [rq])
                      (log ++ [mkMsg Kdsp "R"%char (blk_rq_pos rq)]))) as Hobs.
      { intros measure Hm. exists nd, rq, dl, log. simpl.
        split; [reflexivity|].
        split.
        { unfold handed_over. simpl.
          rewrite nth_error_app2 by lia. now rewrite Nat.sub_diag. }
        split; [exact Hin|].
        split; [exact Hm|].
        unfold sched_data, nd1. simpl.
        now rewrite E, list_del_init_split. }
      eexists (_ :: tr), nd', dl', log'.
      split.
      { simpl. rewrite Hd. simpl. fold nd1. rewrite Hrun. reflexivity. }
      split; [exact Hq'|].
      split; [simpl; rewrite Hlt; rewrite Eq in Hl; simpl in *; lia|].
      split.
      { constructor; [now apply Hobs | exact Hall]. }
      intros Hw. constructor.
      * apply Hobs. intros x Hx.
        rewrite <- !(within_half_exact nd) by assumption.
        now apply Hleast.
      * apply Hhalf. now apply (within_half_dispatch nd rq l1 l2).
Qed.

(** * The specification, claim by claim *)

(** C1.  Scenario: a freshly attached queue has head position 0; after
    the requests at 100, 10 and 50 are added in that order, the first
    dispatch returns 1 and hands over the request at 10, leaving the head
    at 10; the second hands over the request at 50 (head 50); the third
    the request at 100 (head 100); the fourth returns 0 and hands over
    nothing. *)
Theorem scenario_100_10_50 :
  let r100 := mkRequest 0 100 in
  let r10 := mkRequest 1 10 in
  let r50 := mkRequest 2 50 in
  let q0 := snd (sstf_init_queue bare_queue true true) in
  exists q3 q4 q5 q6,
    sched_data q0 = Some {| queue := []; head_position := 0 |} /\
    add_all q0 [r100; r10; r50] = Some q3 /\
    sstf_dispatch q3 0 = Some (q4, 1) /\
    handed_over q3 q4 = Some r10 /\
    sched_data q4 = Some {| queue := [r100; r50]; head_position := 10 |} /\
    sstf_dispatch q4 0 = Some (q5, 1) /\
    handed_over q4 q5 = Some r50 /\
    sched_data q5 = Some {| queue := [r100]; head_position := 50 |} /\
    sstf_dispatch q5 0 = Some (q6, 1) /\
    handed_over q5 q6 = Some r100 /\
    sched_data q6 = Some {| queue := []; head_position := 100 |} /\
    sstf_dispatch q6 0 = Some (q6, 0) /\
    handed_over q6 q6 = None.
Proof.
  intros r100 r10 r50 q0.
  assert (q0 = attached fresh_data [] []) as E0 by reflexivity.
  rewrite E0. do 4 eexists.
  split; [reflexivity|].
  split; [reflexivity|].
  split; [vm_compute; reflexivity|].
  split; [reflexivity|].
  split; [reflexivity|].
  split; [vm_compute; reflexivity|].
  split; [reflexivity|].
  split; [reflexivity|].
  split; [vm_compute; reflexivity|].
  split; [reflexivity|].
  split; [reflexivity|].
  split; [vm_compute; reflexivity | reflexivity].
Qed.

(** C2, as stated, fails: with the head at sector 0 and requests at 5, 5
    and 2^64 - 1 queued in that order, the first two tie at the least
    |location - head| and the first of them is first in queue order, but
    the scan returns the third, whose computed distance is 1. *)
Lemma tie_break_fails_far_apart :
  let a := mkRequest 0 5 in
  let b := mkRequest 1 5 in
  let c := mkRequest 2 18446744073709551615 in
  let nd := {| queue := [a; b; c]; head_position := 0 |} in
  seek 0 a = seek 0 b /\
  first_nearest seek 0 (queue nd) a /\
  distance 0 c = 1 /\
  sstf_find_next_request nd = Some c /\
  ~ first_nearest seek 0 (queue nd) c.
Proof.
  intros a b c nd.
  split; [reflexivity|].
  split.
  { exists [], [b; c]. split; [reflexivity|]. split.
    - intros x [].
    - intros x [<- | [<- | []]]; vm_compute; discriminate. }
  split; [vm_compute; reflexivity|].
  split; [vm_compute; reflexivity|].
  intros (l1 & l2 & E & Hb & _).
  assert (In a l1) as Ha.
  { destruct l1 as [| x l1]; simpl in E.
    - discriminate E.
    - injection E as <- _. now left. }
  specialize (Hb a Ha). revert Hb. vm_compute. discriminate.
Qed.

(** C2, amended.  Tie-break: whatever the queue and the head position,
    the entry [sstf_find_next_request] returns is the first one, in queue
    order, at the least computed distance: every entry before it is
    strictly farther from the head and every entry after it is at least
    as far, by the distance the scan computes, which is |location - head|
    when the head and the pending locations are at most 2^63;
    [sstf_dispatch] hands over that entry.  In particular with the head
    at 20, after the requests at 10 and then at 30 are added, the
    dispatch hands over the request at 10. *)
Theorem tie_break_first_in_queue_order :
  (forall (nd : sstf_data) (dl : list request) (log : list kmsg) (force : Z),
      queue nd <> [] ->
      exists rq q',
        sstf_find_next_request nd = Some rq /\
        first_nearest distance (head_position nd) (queue nd) rq /\
        (within_half nd ->
         first_nearest seek (head_position nd) (queue nd) rq) /\
        sstf_dispatch (attached nd dl log) force = Some (q', 1) /\
        handed_over (attached nd dl log) q' = Some rq) /\
  (let r10 := mkRequest 0 10 in
   let r30 := mkRequest 1 30 in
   exists q2 q3,
     add_all (attached {| queue := []; head_position := 20 |} [] [])
       [r10; r30] = Some q2 /\
     distance 20 r10 = distance 20 r30 /\
     sstf_dispatch q2 0 = Some (q3, 1) /\
     handed_over q2 q3 = Some r10).
Proof.
  split.
  - intros nd dl log force Hne.
    destruct (find_next_request_some nd Hne) as [rq Hrq].
    eexists rq, _. split; [exact Hrq|].
    pose proof (find_next_request_first nd rq Hrq) as Hfirst.
    split; [exact Hfirst|].
    split; [intros Hw; now apply first_nearest_within_half|].
    split; [exact (dispatch_some nd dl log force rq Hrq)|].
    unfold handed_over, attached. simpl.
    rewrite nth_error_app2 by lia. now rewrite Nat.sub_diag.
  - intros r10 r30. do 2 eexists.
    split; [reflexivity|].
    split; [vm_compute; reflexivity|].
    split; [vm_compute; reflexivity | reflexivity].
Qed.

(** C3.  On a non-empty queue [sstf_dispatch] returns 1, unlinks exactly
    the entry [sstf_find_next_request] returns (an entry of least
    computed distance, and of least |location - head| when the head and
    the pending locations are at most 2^63), sets the head position to
    that entry's location and hands the entry over; the other entries
    stay, in their order. *)
Theorem dispatch_removes_nearest
    (nd : sstf_data) (dl : list request) (log : list kmsg) (force : Z) :
  queue nd <> [] ->
  exists rq l1 l2,
    sstf_find_next_request nd = Some rq /\
    (forall x, In x (queue nd) ->
               distance (head_position nd) rq <= distance (head_position nd) x) /\
    (within_half nd ->
     forall x, In x (queue nd) ->
               seek (head_position nd) rq <= seek (head_position nd) x) /\
    queue nd = l1 ++ rq :: l2 /\
    ~ In rq l1 /\
    (NoDup (queue nd) -> ~ In rq (l1 ++ l2)) /\
    sstf_dispatch (attached nd dl log) force =
    Some (attached {| queue := l1 ++ l2; head_position := blk_rq_pos rq |}
            (dl ++ [rq])
            (log ++ [mkMsg Kdsp "R"%char (blk_rq_pos rq)]), 1).
Proof.
  intros Hne.
  destruct (find_next_request_some nd Hne) as [rq Hrq].
  destruct (dispatch_pending nd dl log force rq Hrq) as (l1 & l2 & E & Hn & Hleast & Hd).
  exists rq, l1, l2.
  assert (In rq (queue nd)) as Hin
    by (rewrite E; apply in_or_app; right; now left).
  split; [exact Hrq|].
  split; [exact Hleast|].
  split.
  { intros Hw x Hx. rewrite <- !(within_half_exact nd) by assumption.
    now apply Hleast. }
  split; [exact E|].
  split; [exact Hn|].
  split; [|exact Hd].
  rewrite E. apply nodup_split_absent.
Qed.

(** The theorem at a queue of two requests, head at 40. *)
Lemma dispatch_removes_nearest_witness :
  let r := mkRequest 7 30 in
  let nd := {| queue := [mkRequest 3 80; r]; head_position := 40 |} in
  exists rq l1 l2,
    sstf_find_next_request nd = Some rq /\
    (forall x, In x (queue nd) ->
               distance (head_position nd) rq <= distance (head_position nd) x) /\
    (within_half nd ->
     forall x, In x (queue nd) ->
               seek (head_position nd) rq <= seek (head_position nd) x) /\
    queue nd = l1 ++ rq :: l2 /\
    ~ In rq l1 /\
    (NoDup (queue nd) -> ~ In rq (l1 ++ l2)) /\
    sstf_dispatch (attached nd [] []) 0 =
    Some (attached {| queue := l1 ++ l2; head_position := blk_rq_pos rq |}
            ([] ++ [rq])
            ([] ++ [mkMsg Kdsp "R"%char (blk_rq_pos rq)]), 1).
Proof.
  intros r nd. apply (dispatch_removes_nearest nd [] [] 0).
  simpl. discriminate.
Defined.

(** C4, as stated, fails: after the requests at 10 and 11 are added to a
    fresh queue, the two dispatches seek 10 and then 1. *)
Lemma seeks_can_go_down :
  exists q tr qf,
    add_all (snd (sstf_init_queue bare_queue true true))
      (requests_at 0 [10; 11]) = Some q /\
    dispatch_all 0 3 q = (tr, qf) /\
    seeks tr = [10; 1] /\
    ~ nondecreasing (seeks tr).
Proof.
  do 3 eexists.
  split; [reflexivity|].
  split; [vm_compute; reflexivity|].
  split; [reflexivity|].
  simpl. intros [H _]. revert H. vm_compute. intros H. apply H. reflexivity.
Qed.

(** C4, amended.  For every list of locations added to a fresh queue,
    calling [sstf_dispatch] until it returns 0 succeeds once per request
    and leaves the queue empty; each of these dispatches takes a pending
    request whose computed distance from the head position at that time
    is no greater than that of any other pending request, and leaves the
    head position on the location it took.  When all locations are at
    most 2^63 the same holds for the distance |location - head|. *)
Theorem dispatch_all_nearest_each_time (locs : list Z) (force : Z) :
  exists q tr qf,
    add_all (snd (sstf_init_queue bare_queue true true))
      (requests_at 0 locs) = Some q /\
    dispatch_all force (S (length locs)) q = (tr, qf) /\
    length tr = length locs /\
    (exists nd', sched_data qf = Some nd' /\ queue nd' = []) /\
    Forall (nearest_dispatch distance) tr /\
    (Forall (fun l => 0 <= l <= Sector.half) locs ->
     Forall (nearest_dispatch seek) tr).
Proof.
  change (snd (sstf_init_queue bare_queue true true))
    with (attached fresh_data [] []).
  rewrite add_all_attached. simpl.
  set (nd := {| queue := requests_at 0 locs; head_position := 0 |}).
  set (log := map (fun rq => mkMsg Kadd "R"%char (blk_rq_pos rq))
                (requests_at 0 locs)).
  destruct (dispatch_all_attached force (S (length locs)) nd [] log)
    as (tr & nd' & dl' & log' & Hrun & Hq' & Hlt & Hall & Hhalf).
  { simpl. rewrite requests_at_length. lia. }
  exists (attached nd [] log), tr, (attached nd' dl' log').
  split; [reflexivity|].
  split; [exact Hrun|].
  split; [rewrite Hlt; simpl; apply requests_at_length|].
  split; [exists nd'; split; [reflexivity | exact Hq']|].
  split; [exact Hall|].
  intros Hlocs. apply Hhalf. split; simpl.
  - rewrite half_eq. lia.
  - exact (requests_at_positions locs
             (fun l => 0 <= l <= Sector.half) Hlocs 0%nat).
Qed.

(** C5.  With an empty queue [sstf_dispatch] returns 0 and leaves the
    request queue (head position, empty list, dispatch list and log) as
    it was, however many times it is called. *)
Theorem dispatch_idle_repeatedly
    (nd : sstf_data) (dl : list request) (log : list kmsg) (force : Z) :
  queue nd = [] ->
  sstf_dispatch (attached nd dl log) force = Some (attached nd dl log, 0) /\
  forall n : nat,
    dispatch_times force n (attached nd dl log) =
    Some (repeat 0 n, attached nd dl log).
Proof.
  intros Hq. split; [now apply dispatch_idle|].
  induction n as [| n IH]; simpl.
  - reflexivity.
  - rewrite (dispatch_idle nd dl log force Hq), IH. reflexivity.
Qed.

(** The theorem at an idle scheduler whose head rests at 77. *)
Lemma dispatch_idle_repeatedly_witness :
  let nd := {| queue := []; head_position := 77 |} in
  sstf_dispatch (attached nd [] []) 0 = Some (attached nd [] [], 0) /\
  forall n : nat,
    dispatch_times 0 n (attached nd [] []) =
    Some (repeat 0 n, attached nd [] []).
Proof.
  intros nd. apply (dispatch_idle_repeatedly nd [] [] 0). reflexivity.
Defined.

(** C6.  When [next] is on the queue, [sstf_merged_requests] unlinks it
    and nothing else: the entries before and after it stay in their
    order, the queue is one entry shorter, [next] is gone when the queue
    held it once, and the head position, the dispatch list and the log
    are untouched.  Adding a request leaves the head position alone as
    well. *)
Theorem merged_requests_unlinks_next
    (nd : sstf_data) (dl : list request) (log : list kmsg)
    (rq next : request) :
  In next (queue nd) ->
  exists l1 l2,
    queue nd = l1 ++ next :: l2 /\
    ~ In next l1 /\
    sstf_merged_requests (attached nd dl log) rq next =
    attached {| queue := l1 ++ l2; head_position := head_position nd |}
      dl log /\
    S (length (l1 ++ l2)) = length (queue nd) /\
    (NoDup (queue nd) -> ~ In next (l1 ++ l2)) /\
    (rq <> next -> In rq (queue nd) -> In rq (l1 ++ l2)) /\
    (forall r, exists q',
        sstf_add_request (attached nd dl log) r = Some q' /\
        option_map head_position (sched_data q') = Some (head_position nd)).
Proof.
  intros Hin.
  destruct (in_first_split next (queue nd) Hin) as (l1 & l2 & E & Hn).
  exists l1, l2.
  split; [exact E|].
  split; [exact Hn|].
  split.
  { rewrite (merged_requests_pending nd dl log rq next Hin).
    now rewrite E, list_del_init_split. }
  split.
  { rewrite E, !length_app. simpl. lia. }
  split.
  { rewrite E. apply nodup_split_absent. }
  split.
  { intros Hne Hrq. rewrite E in Hrq.
    apply in_or_app. apply in_app_or in Hrq.
    destruct Hrq as [H | [H | H]]; [now left | congruence | now right]. }
  intros r. eexists. split; reflexivity.
Qed.

(** The theorem at a queue of three requests, the middle one merged
    into the first. *)
Lemma merged_requests_unlinks_next_witness :
  let a := mkRequest 1 40 in
  let b := mkRequest 2 48 in
  let c := mkRequest 3 90 in
  let nd := {| queue := [a; b; c]; head_position := 5 |} in
  exists l1 l2,
    queue nd = l1 ++ b :: l2 /\
    ~ In b l1 /\
    sstf_merged_requests (attached nd [] []) a b =
    attached {| queue := l1 ++ l2; head_position := head_position nd |}
      [] [] /\
    S (length (l1 ++ l2)) = length (queue nd) /\
    (NoDup (queue nd) -> ~ In b (l1 ++ l2)) /\
    (a <> b -> In a (queue nd) -> In a (l1 ++ l2)) /\
    (forall r, exists q',
        sstf_add_request (attached nd [] []) r = Some q' /\
        option_map head_position (sched_data q') = Some (head_position nd)).
Proof.
  intros a b c nd. apply (merged_requests_unlinks_next nd [] [] a b).
  simpl. right. left. reflexivity.
Defined.

(** C7, as stated, fails: with the head at sector 0 and a request at the
    last sector 2^64 - 1 the computed distance is 1, not 2^64 - 1. *)
Lemma distance_wraps_far_apart :
  let rq := mkRequest 0 18446744073709551615 in
  Sector.in_range 0 /\
  Sector.in_range (blk_rq_pos rq) /\
  seek 0 rq = 18446744073709551615 /\
  distance 0 rq = 1 /\
  distance 0 rq <> seek 0 rq.
Proof.
  intros rq. unfold Sector.in_range. rewrite modulus_eq.
  split; [lia|].
  split; [simpl; lia|].
  split; [reflexivity|].
  split; [vm_compute; reflexivity|].
  vm_compute. discriminate.
Qed.

(** C7, amended.  For a head position and a request location that are
    both [sector_t] values, the computed distance lies between 0 and
    2^63; it is the absolute difference |location - head| when the two
    are at most 2^63 apart, and 2^64 minus that difference otherwise. *)
Theorem distance_is_wrapped_difference (head : Z) (rq : request) :
  Sector.in_range head ->
  Sector.in_range (blk_rq_pos rq) ->
  0 <= distance head rq <= Sector.half /\
  (seek head rq <= Sector.half -> distance head rq = seek head rq) /\
  (Sector.half < seek head rq ->
   distance head rq = Sector.modulus - seek head rq).
Proof.
  intros Hh Hp.
  split; [apply distance_bound|].
  split.
  - intros Hd. now apply distance_exact.
  - intros Hd. now apply distance_far.
Qed.

(** The theorem at head 100 and a request at 30. *)
Lemma distance_is_wrapped_difference_witness :
  let rq := mkRequest 4 30 in
  0 <= distance 100 rq <= Sector.half /\
  (seek 100 rq <= Sector.half -> distance 100 rq = seek 100 rq) /\
  (Sector.half < seek 100 rq ->
   distance 100 rq = Sector.modulus - seek 100 rq).
Proof.
  intros rq. apply (distance_is_wrapped_difference 100 rq).
  - unfold Sector.in_range. rewrite modulus_eq. lia.
  - unfold Sector.in_range. rewrite modulus_eq. simpl. lia.
Defined.

(** C8.  [sstf_exit_queue] ends in the BUG exactly when the queue still
    holds a request, and releases the data exactly when the queue is
    empty: it never passes with requests pending. *)
Theorem exit_queue_bug_iff_pending (e : elevator_queue) :
  (sstf_exit_queue e = Exit_BUG <-> queue (elevator_data e) <> []) /\
  (sstf_exit_queue e = Exit_freed <-> queue (elevator_data e) = []).
Proof.
  unfold sstf_exit_queue.
  destruct (queue (elevator_data e)) as [| rq l]; simpl.
  - split; split; intros H; try reflexivity; congruence.
  - split; split; intros H; try reflexivity; congruence.
Qed.

(** C9.  [sstf_init_queue] either returns 0 with fresh data installed
    (empty queue, head position 0), when both allocations succeed, or
    returns -ENOMEM and leaves the request queue exactly as it was, when
    one of them fails. *)
Theorem init_queue_fresh_or_enomem
    (q : request_queue) (elevator_alloc_ok kmalloc_ok : bool) :
  let r := sstf_init_queue q elevator_alloc_ok kmalloc_ok in
  (elevator_alloc_ok && kmalloc_ok = true /\
   fst r = 0 /\
   sched_data (snd r) = Some {| queue := []; head_position := 0 |} /\
   queue_head (snd r) = queue_head q /\
   klog (snd r) = klog q)
  \/
  (elevator_alloc_ok && kmalloc_ok = false /\
   fst r = - ENOMEM /\
   snd r = q).
Proof.
  unfold sstf_init_queue.
  destruct elevator_alloc_ok, kmalloc_ok; simpl.
  - left. repeat split.
  - right. repeat split.
  - right. repeat split.
  - right. repeat split.
Qed.

(** C10, as stated, fails: no queue has a pending request at the sentinel
    distance 2^64 - 1, so the scan never takes a later entry over an
    earlier one that is no farther. *)
Lemma sentinel_never_overrides : ~ exists nd : sstf_data, sentinel_overrides nd.
Proof.
  intros (nd & clash & l1 & early & l2 & late & l3 & _ & Hd & _).
  pose proof (distance_below_all_ones (head_position nd) clash). lia.
Qed.

(** C10, amended.  The sentinel [(sector_t)-1] is never a computed
    distance, which is at most 2^63: after the first entry the minimum is
    defined for good, the scan agrees with the sentinel-free selection of
    the spec on every queue and head position, and what it returns is the
    first entry at the least computed distance. *)
Theorem sentinel_is_never_a_distance :
  (forall head rq,
      0 <= distance head rq <= Sector.half /\
      distance head rq <> Sector.all_ones) /\
  (forall head rq l,
      fst (fold_left (scan_step head) (rq :: l) (Sector.all_ones, None))
      <> Sector.all_ones) /\
  (forall nd, sstf_find_next_request nd = spec_find_nearest nd) /\
  (forall nd rq,
      sstf_find_next_request nd = Some rq ->
      first_nearest distance (head_position nd) (queue nd) rq).
Proof.
  split.
  { intros head rq. split; [apply distance_bound|].
    pose proof (distance_below_all_ones head rq). lia. }
  split.
  { intros head rq l. simpl. rewrite scan_started. simpl.
    pose proof (distance_below_all_ones head (nearest_from head rq l)). lia. }
  split.
  { apply find_next_request_spec. }
  apply find_next_request_first.
Qed.


(** * Further properties of the scheduler *)

(** ** More on unlinking *)

Lemma list_del_init_absent (entry : request) (l : list request) :
  ~ In entry l -> list_del_init entry l = l.
Proof.
  induction l as [| x l IH]; simpl; intros Hn; [reflexivity|].
  destruct (request_eq_dec entry x) as [-> | NE].
  - exfalso. apply Hn. now left.
  - f_equal. apply IH. intros H. apply Hn. now right.
Qed.

Lemma list_del_init_length (entry : request) (l : list request) :
  In entry l -> S (length (list_del_init entry l)) = length l.
Proof.
  intros Hin. destruct (in_first_split entry l Hin) as (l1 & l2 & -> & Hn).
  rewrite list_del_init_split by exact Hn.
  rewrite !length_app. simpl. lia.
Qed.

Lemma list_del_init_perm (entry : request) (l : list request) :
  In entry l -> Permutation l (entry :: list_del_init entry l).
Proof.
  intros Hin. destruct (in_first_split entry l Hin) as (l1 & l2 & -> & Hn).
  rewrite list_del_init_split by exact Hn.
  symmetry. apply Permutation_middle.
Qed.

Lemma list_del_init_incl (entry x : request) (l : list request) :
  In x (list_del_init entry l) -> In x l.
Proof.
  induction l as [| y l IH]; simpl; [intros []|].
  destruct (request_eq_dec entry y) as [-> | NE].
  - intros H. now right.
  - intros [H | H]; [now left | right; now apply IH].
Qed.

Lemma list_del_init_nodup (entry : request) (l : list request) :
  NoDup l -> NoDup (list_del_init entry l).
Proof.
  induction 1 as [| y l Hy Hl IH]; simpl; [constructor|].
  destruct (request_eq_dec entry y) as [-> | NE]; [exact Hl|].
  constructor; [|exact IH].
  intros H. apply Hy. now apply list_del_init_incl in H.
Qed.

Lemma list_del_init_gone (entry : request) (l : list request) :
  NoDup l -> ~ In entry (list_del_init entry l).
Proof.
  induction 1 as [| y l Hy Hl IH]; simpl; [intros []|].
  destruct (request_eq_dec entry y) as [-> | NE]; [exact Hy|].
  intros [H | H]; [congruence | contradiction].
Qed.

(** ** More on the scan *)

Lemma find_next_request_in (nd : sstf_data) (rq : request) :
  sstf_find_next_request nd = Some rq -> In rq (queue nd).
Proof.
  intros H. destruct (find_next_request_first nd rq H) as (l1 & l2 & -> & _).
  apply in_or_app. right. now left.
Qed.

Lemma find_next_request_none_inv (nd : sstf_data) :
  sstf_find_next_request nd = None -> queue nd = [].
Proof.
  intros H. destruct (queue nd) as [| r l] eqn:E; [reflexivity|].
  destruct (find_next_request_some nd) as [rq Hrq]; congruence.
Qed.

(** The scan after one more entry was linked at the tail. *)
Lemma find_next_request_tail (head : Z) (l : list request) (rq : request) :
  sstf_find_next_request {| queue := l ++ [rq]; head_position := head |} =
  match sstf_find_next_request {| queue := l; head_position := head |} with
  | None => Some rq
  | Some best =>
      if distance head rq <? distance head best then Some rq else Some best
  end.
Proof.
  unfold sstf_find_next_request. simpl. rewrite fold_left_app.
  destruct l as [| r l]; simpl.
  - reflexivity.
  - rewrite scan_started. simpl.
    assert ((distance head (nearest_from head r l) =? Sector.all_ones) = false)
      as ->.
    { apply Z.eqb_neq.
      pose proof (distance_below_all_ones head (nearest_from head r l)). lia. }
    simpl.
    destruct (distance head rq <? distance head (nearest_from head r l));
      reflexivity.
Qed.

(** ** The dispatch loop as a sequence of scans *)

Lemma last_cons_default (a d : Z) (l : list Z) : last (a :: l) d = last l a.
Proof.
  revert a d. induction l as [| b l IH]; intros a d; [reflexivity|].
  change (last (a :: b :: l) d) with (last (b :: l) d).
  now rewrite !IH.
Qed.

(** Enough calls of [sstf_dispatch] empty the queue: the requests taken
    follow [drains]; they are appended to the dispatch list, one log line
    each, and the head rests on the last of them. *)
Lemma dispatch_all_drains (force : Z) (fuel : nat) :
  forall (nd : sstf_data) (dl : list request) (log : list kmsg),
    (length (queue nd) <= fuel)%nat ->
    exists out,
      drains nd out /\
      snd (dispatch_all force fuel (attached nd dl log)) =
      attached {| queue := [];
                  head_position :=
                    last (map blk_rq_pos out) (head_position nd) |}
        (dl ++ out) (log ++ map dsp_line out).
Proof.
  induction fuel as [| fuel IH]; intros nd dl log Hlen.
  - destruct nd as [qu hd]. simpl in Hlen.
    destruct qu as [| r qu]; simpl in Hlen; [|lia].
    exists []. split; [now constructor|].
    simpl. now rewrite !app_nil_r.
  - destruct (sstf_find_next_request nd) as [rq |] eqn:Hrq.
    + pose proof (find_next_request_in nd rq Hrq) as Hin.
      pose proof (list_del_init_length rq (queue nd) Hin) as Hl.
      set (nd1 := {| queue := list_del_init rq (queue nd);
                     head_position := blk_rq_pos rq |}).
      destruct (IH nd1 (dl ++ [rq]) (log ++ [dsp_line rq]))
        as (out & Hout & Hrun).
      { simpl. lia. }
      exists (rq :: out). split; [now apply drains_step|].
      simpl. rewrite (dispatch_some nd dl log force rq Hrq). simpl.
      fold nd1. fold (dsp_line rq).
      destruct (dispatch_all force fuel
                  (attached nd1 (dl ++ [rq]) (log ++ [dsp_line rq])))
        as [tr qf].
      simpl in Hrun |- *. rewrite Hrun.
      rewrite <- !app_assoc. simpl.
      f_equal. f_equal.
      destruct (map blk_rq_pos out) as [| b l]; [reflexivity|].
      symmetry. rewrite last_cons_default.
      change (last (blk_rq_pos rq :: b :: l) (head_position nd))
        with (last (b :: l) (head_position nd)).
      now rewrite last_cons_default.
    + pose proof (find_next_request_none_inv nd Hrq) as Hq.
      exists []. split; [now constructor|].
      simpl. rewrite (dispatch_idle nd dl log force Hq). simpl.
      destruct nd as [qu hd]. simpl in Hq. subst qu.
      now rewrite !app_nil_r.
Qed.

Lemma drains_perm (nd : sstf_data) (out : list request) :
  drains nd out -> Permutation out (queue nd).
Proof.
  induction 1 as [nd Hnone | nd rq out Hrq _ IH].
  - now rewrite (find_next_request_none_inv nd Hnone).
  - simpl in IH.
    rewrite (list_del_init_perm rq (queue nd))
      by now apply find_next_request_in.
    now constructor.
Qed.

(** Requests that all sit at one location leave in queue order. *)
Lemma drains_one_location (nd : sstf_data) (out : list request) :
  drains nd out ->
  forall p, (forall r, In r (queue nd) -> blk_rq_pos r = p) ->
  out = queue nd.
Proof.
  induction 1 as [nd Hnone | nd rq out Hrq _ IH]; intros p Hp.
  - now rewrite (find_next_request_none_inv nd Hnone).
  - destruct (find_next_request_first nd rq Hrq) as (l1 & l2 & E & Hb & _).
    assert (l1 = []) as ->.
    { destruct l1 as [| x l1]; [reflexivity|]. exfalso.
      assert (distance (head_position nd) rq < distance (head_position nd) x)
        as Hlt by (apply Hb; now left).
      unfold distance in Hlt.
      rewrite (Hp x), (Hp rq) in Hlt.
      - lia.
      - rewrite E. apply in_or_app. right. now left.
      - rewrite E. now left. }
    simpl in E. simpl in IH. rewrite E in IH |- *. simpl in IH.
    destruct (request_eq_dec rq rq) as [_ | NE]; [|congruence].
    f_equal. apply (IH p). intros r Hr. apply Hp. rewrite E. now right.
Qed.

(** *** Sweeps

    [k] is the direction of the sweep: the identity for requests at or
    above the head, the negation for requests at or below it. *)
Section Sweep.

Variable k : Z -> Z.

Hypothesis k_distance :
  forall (h : Z) (rq : request),
    0 <= h <= Sector.half -> 0 <= blk_rq_pos rq <= Sector.half ->
    k h <= k (blk_rq_pos rq) ->
    distance h rq = k (blk_rq_pos rq) - k h.

Lemma drains_sweep (nd : sstf_data) (out : list request) :
  drains nd out ->
  within_half nd ->
  (forall r, In r (queue nd) -> k (head_position nd) <= k (blk_rq_pos r)) ->
  nondecreasing (map k (head_position nd :: map blk_rq_pos out)).
Proof.
  induction 1 as [nd Hnone | nd rq out Hrq _ IH]; intros Hw Hside.
  - exact I.
  - pose proof (find_next_request_first nd rq Hrq) as Hfirst.
    pose proof (first_nearest_least _ _ _ Hfirst) as Hleast.
    destruct Hfirst as (l1 & l2 & E & Hb & _).
    pose proof (first_nearest_not_before _ _ _ Hb) as Hn.
    assert (In rq (queue nd)) as Hin
      by (rewrite E; apply in_or_app; right; now left).
    assert (forall x, In x (queue nd) ->
                      distance (head_position nd) x =
                      k (blk_rq_pos x) - k (head_position nd)) as Hd.
    { intros x Hx. destruct Hw as [Hh Hq].
      rewrite Forall_forall in Hq.
      apply k_distance; [exact Hh | now apply Hq | now apply Hside]. }
    assert (forall x, In x (queue nd) ->
                      k (blk_rq_pos rq) <= k (blk_rq_pos x)) as Hmin.
    { intros x Hx. specialize (Hleast x Hx).
      rewrite (Hd x Hx), (Hd rq Hin) in Hleast. lia. }
    simpl in IH. rewrite E, (list_del_init_split rq l1 l2 Hn) in IH.
    change (k (head_position nd) <= k (blk_rq_pos rq) /\
            nondecreasing (map k (blk_rq_pos rq :: map blk_rq_pos out))).
    split; [now apply Hside|].
    apply IH.
    + now apply (within_half_dispatch nd rq l1 l2).
    + intros r Hr. apply Hmin. rewrite E.
      apply in_or_app. apply in_app_or in Hr.
      destruct Hr as [Hr | Hr]; [now left | right; now right].
Qed.

End Sweep.

Lemma distance_upwards (h : Z) (rq : request) :
  0 <= h <= Sector.half -> 0 <= blk_rq_pos rq <= Sector.half ->
  h <= blk_rq_pos rq ->
  distance h rq = blk_rq_pos rq - h.
Proof.
  intros Hh Hp Hle.
  rewrite distance_exact; unfold seek; sector_lia.
Qed.

Lemma distance_downwards (h : Z) (rq : request) :
  0 <= h <= Sector.half -> 0 <= blk_rq_pos rq <= Sector.half ->
  - h <= - blk_rq_pos rq ->
  distance h rq = - blk_rq_pos rq - - h.
Proof.
  intros Hh Hp Hle.
  rewrite distance_exact; unfold seek; sector_lia.
Qed.

Lemma list_del_init_shorter (entry : request) (l : list request) :
  (length (list_del_init entry l) <= length l)%nat.
Proof.
  destruct (in_dec request_eq_dec entry l) as [Hin | Hn].
  - pose proof (list_del_init_length entry l Hin). lia.
  - now rewrite list_del_init_absent.
Qed.

Lemma dispatch_times_idle (nd : sstf_data) (dl : list request)
    (log : list kmsg) (force : Z) (m : nat) :
  queue nd = [] ->
  dispatch_times force m (attached nd dl log) =
  Some (repeat 0 m, attached nd dl log).
Proof.
  intros Hq. induction m as [| m IH]; simpl; [reflexivity|].
  now rewrite (dispatch_idle nd dl log force Hq), IH.
Qed.

Lemma dispatch_times_pending (force : Z) (m : nat) (n : nat) :
  forall (nd : sstf_data) (dl : list request) (log : list kmsg),
    length (queue nd) = n ->
    exists nd' dl' log',
      dispatch_times force (n + m) (attached nd dl log) =
      Some (repeat 1 n ++ repeat 0 m, attached nd' dl' log') /\
      queue nd' = [].
Proof.
  induction n as [| n IH]; intros nd dl log Hlen.
  - assert (queue nd = []) as Hq by (destruct (queue nd); [reflexivity | discriminate]).
    exists nd, dl, log. split; [|exact Hq].
    simpl. now apply dispatch_times_idle.
  - assert (queue nd <> []) as Hne by (destruct (queue nd); [discriminate | congruence]).
    destruct (find_next_request_some nd Hne) as [rq Hrq].
    pose proof (list_del_init_length rq (queue nd)
                  (find_next_request_in nd rq Hrq)) as Hl.
    destruct (IH {| queue := list_del_init rq (queue nd);
                    head_position := blk_rq_pos rq |}
                (dl ++ [rq]) (log ++ [mkMsg Kdsp "R"%char (blk_rq_pos rq)]))
      as (nd' & dl' & log' & Hrun & Hq').
    { simpl. lia. }
    exists nd', dl', log'. split; [|exact Hq'].
    simpl. rewrite (dispatch_some nd dl log force rq Hrq), Hrun. reflexivity.
Qed.

(** ** The ring of sectors *)

Lemma distance_ring (head : Z) (rq : request) :
  distance head rq = ring_distance (blk_rq_pos rq) head.
Proof.
  unfold distance, ring_distance, Sector.sub.
  pose proof (wrap_range (blk_rq_pos rq - head)) as R.
  rewrite stored_abs by exact R.
  destruct (Z.leb_spec (Sector.wrap (blk_rq_pos rq - head)) Sector.half);
    sector_lia.
Qed.

Lemma ring_distance_sym (a b : Z) : ring_distance a b = ring_distance b a.
Proof.
  unfold ring_distance, Sector.wrap. rewrite modulus_eq.
  Z.div_mod_to_equations. lia.
Qed.

Lemma ring_distance_zero (a b : Z) :
  ring_distance a b = 0 <-> Sector.wrap a = Sector.wrap b.
Proof.
  unfold ring_distance, Sector.wrap. rewrite modulus_eq.
  Z.div_mod_to_equations. lia.
Qed.

Lemma ring_distance_triangle (a b c : Z) :
  ring_distance a c <= ring_distance a b + ring_distance b c.
Proof.
  unfold ring_distance, Sector.wrap. rewrite modulus_eq.
  Z.div_mod_to_equations. lia.
Qed.

Lemma init_add_all (q : request_queue) (rqs : list request) :
  add_all (snd (sstf_init_queue q true true)) rqs =
  Some (attached {| queue := rqs; head_position := 0 |}
          (queue_head q) (klog q ++ map add_line rqs)).
Proof.
  change (snd (sstf_init_queue q true true))
    with (attached fresh_data (queue_head q) (klog q)).
  now rewrite add_all_attached.
Qed.

(** * Further properties, one by one *)

(** X1.  [sstf_find_next_request] returns NULL exactly when the queue is
    empty, and a request it returns is one of the pending ones. *)
Theorem find_next_request_null_iff_empty (nd : sstf_data) :
  (sstf_find_next_request nd = None <-> queue nd = []) /\
  (forall rq, sstf_find_next_request nd = Some rq -> In rq (queue nd)).
Proof.
  split; [split|].
  - apply find_next_request_none_inv.
  - apply find_next_request_none.
  - intros rq. apply find_next_request_in.
Qed.

(** X2.  On an attached queue [sstf_dispatch] never faults and returns 0
    or 1; it returns 0 exactly when nothing is pending, and the value it
    returns is the number of requests that left the queue, arrived on the
    dispatch list and were logged. *)
Theorem dispatch_returns_what_it_took
    (nd : sstf_data) (dl : list request) (log : list kmsg) (force : Z) :
  exists q' ret nd',
    sstf_dispatch (attached nd dl log) force = Some (q', ret) /\
    sched_data q' = Some nd' /\
    (ret = 0 \/ ret = 1) /\
    (ret = 0 <-> queue nd = []) /\
    Z.of_nat (length (queue nd')) + ret = Z.of_nat (length (queue nd)) /\
    Z.of_nat (length (queue_head q')) = Z.of_nat (length dl) + ret /\
    Z.of_nat (length (klog q')) = Z.of_nat (length log) + ret.
Proof.
  destruct (sstf_find_next_request nd) as [rq |] eqn:Hrq.
  - pose proof (find_next_request_in nd rq Hrq) as Hin.
    pose proof (list_del_init_length rq (queue nd) Hin) as Hl.
    do 3 eexists.
    split; [exact (dispatch_some nd dl log force rq Hrq)|].
    split; [reflexivity|].
    split; [now right|].
    split.
    { split; [discriminate|]. intros Hq. rewrite Hq in Hin. destruct Hin. }
    simpl. rewrite !length_app. simpl. lia.
  - pose proof (find_next_request_none_inv nd Hrq) as Hq.
    exists (attached nd dl log), 0, nd.
    split; [exact (dispatch_idle nd dl log force Hq)|].
    split; [reflexivity|].
    split; [now left|].
    split; [tauto|].
    simpl. lia.
Qed.

(** X3.  Round trip on an idle scheduler: a request added to an empty
    queue is the one the next dispatch hands over, whatever the head
    position; the queue is empty again, the head rests on the request
    and the log holds the add line and the dispatch line. *)
Theorem add_then_dispatch_when_idle
    (nd : sstf_data) (dl : list request) (log : list kmsg) (force : Z)
    (rq : request) :
  queue nd = [] ->
  exists q1,
    sstf_add_request (attached nd dl log) rq = Some q1 /\
    sstf_dispatch q1 force =
    Some (attached {| queue := []; head_position := blk_rq_pos rq |}
            (dl ++ [rq]) (log ++ [add_line rq; dsp_line rq]), 1).
Proof.
  intros Hq. destruct nd as [qu hd]. simpl in Hq. subst qu.
  eexists. split; [reflexivity|].
  change (sstf_dispatch
            (attached {| queue := [] ++ [rq]; head_position := hd |}
               dl (log ++ [add_line rq])) force =
          Some (attached {| queue := []; head_position := blk_rq_pos rq |}
                  (dl ++ [rq]) (log ++ [add_line rq; dsp_line rq]), 1)).
  rewrite (dispatch_some _ dl (log ++ [add_line rq]) force rq)
    by (rewrite find_next_request_tail; reflexivity).
  simpl. destruct (request_eq_dec rq rq) as [_ | NE]; [|congruence].
  now rewrite <- app_assoc.
Qed.

(** The theorem at an idle scheduler with the head at 500. *)
Lemma add_then_dispatch_when_idle_witness :
  let nd := {| queue := []; head_position := 500 |} in
  let rq := mkRequest 9 20 in
  exists q1,
    sstf_add_request (attached nd [] []) rq = Some q1 /\
    sstf_dispatch q1 0 =
    Some (attached {| queue := []; head_position := blk_rq_pos rq |}
            ([] ++ [rq]) ([] ++ [add_line rq; dsp_line rq]), 1).
Proof.
  intros nd rq. apply (add_then_dispatch_when_idle nd [] [] 0 rq).
  reflexivity.
Defined.

(** X4.  What the scan finds after [sstf_add_request]: the request just
    added when nothing was pending or when it is strictly nearer to the
    head than the one found before; otherwise the one found before.  A
    later arrival at the same distance does not take precedence. *)
Theorem later_arrival_preempts_only_if_nearer
    (nd : sstf_data) (dl : list request) (log : list kmsg) (rq : request) :
  exists q' nd',
    sstf_add_request (attached nd dl log) rq = Some q' /\
    sched_data q' = Some nd' /\
    sstf_find_next_request nd' =
    match sstf_find_next_request nd with
    | None => Some rq
    | Some best =>
        if distance (head_position nd) rq <? distance (head_position nd) best
        then Some rq else Some best
    end.
Proof.
  destruct nd as [qu hd]. do 2 eexists.
  split; [reflexivity|].
  split; [reflexivity|].
  apply find_next_request_tail.
Qed.

(** X5.  The queue stays free of duplicates: adding a request that is
    not pending, dispatching, and merging keep a duplicate-free queue
    duplicate-free, and after the merge [next] is no longer on it. *)
Theorem queue_stays_duplicate_free
    (nd : sstf_data) (dl : list request) (log : list kmsg) (force : Z) :
  NoDup (queue nd) ->
  (forall rq, ~ In rq (queue nd) ->
     exists q' nd',
       sstf_add_request (attached nd dl log) rq = Some q' /\
       sched_data q' = Some nd' /\ NoDup (queue nd')) /\
  (exists q' ret nd',
     sstf_dispatch (attached nd dl log) force = Some (q', ret) /\
     sched_data q' = Some nd' /\ NoDup (queue nd')) /\
  (forall rq next,
     exists nd',
       sched_data (sstf_merged_requests (attached nd dl log) rq next)
       = Some nd' /\
       NoDup (queue nd') /\ ~ In next (queue nd')).
Proof.
  intros Hnd. split; [|split].
  - intros rq Hn. do 2 eexists.
    split; [reflexivity|]. split; [reflexivity|].
    simpl. unfold list_add_tail.
    apply NoDup_app; [exact Hnd | repeat constructor; intros [] |].
    intros x Hx [<- | []]. contradiction.
  - destruct (sstf_find_next_request nd) as [rq |] eqn:Hrq.
    + do 3 eexists.
      split; [exact (dispatch_some nd dl log force rq Hrq)|].
      split; [reflexivity|].
      simpl. now apply list_del_init_nodup.
    + exists (attached nd dl log), 0, nd.
      split; [|split; [reflexivity | exact Hnd]].
      apply dispatch_idle. now apply find_next_request_none_inv.
  - intros rq next.
    destruct (in_dec request_eq_dec next (queue nd)) as [Hin | Hn].
    + rewrite (merged_requests_pending nd dl log rq next Hin).
      eexists. split; [reflexivity|]. simpl.
      split; [now apply list_del_init_nodup | now apply list_del_init_gone].
    + rewrite (merged_requests_not_pending nd dl log rq next Hn).
      exists nd. split; [reflexivity|]. split; assumption.
Qed.

(** The theorem at a queue of two distinct requests. *)
Lemma queue_stays_duplicate_free_witness :
  let nd := {| queue := [mkRequest 1 8; mkRequest 2 8]; head_position := 3 |} in
  (forall rq, ~ In rq (queue nd) ->
     exists q' nd',
       sstf_add_request (attached nd [] []) rq = Some q' /\
       sched_data q' = Some nd' /\ NoDup (queue nd')) /\
  (exists q' ret nd',
     sstf_dispatch (attached nd [] []) 0 = Some (q', ret) /\
     sched_data q' = Some nd' /\ NoDup (queue nd')) /\
  (forall rq next,
     exists nd',
       sched_data (sstf_merged_requests (attached nd [] []) rq next)
       = Some nd' /\
       NoDup (queue nd') /\ ~ In next (queue nd')).
Proof.
  intros nd. apply (queue_stays_duplicate_free nd [] [] 0).
  simpl. constructor.
  - intros [H | []]. discriminate H.
  - constructor; [intros [] | constructor].
Defined.

(** X6.  Nothing is lost and nothing is dispatched twice: given at least
    as many calls as there are pending requests, the dispatch loop empties
    the queue; the requests it appends to the dispatch list are the
    pending ones in some order, each is logged in that order, and the
    head rests on the last one (or stays put when nothing was pending). *)
Theorem dispatch_all_takes_each_request_once
    (nd : sstf_data) (dl : list request) (log : list kmsg) (force : Z)
    (fuel : nat) :
  (length (queue nd) <= fuel)%nat ->
  exists out,
    Permutation out (queue nd) /\
    snd (dispatch_all force fuel (attached nd dl log)) =
    attached {| queue := [];
                head_position := last (map blk_rq_pos out) (head_position nd) |}
      (dl ++ out) (log ++ map dsp_line out).
Proof.
  intros Hlen.
  destruct (dispatch_all_drains force fuel nd dl log Hlen) as (out & Hd & Hrun).
  exists out. split; [now apply drains_perm | exact Hrun].
Qed.

(** The theorem at three pending requests and four calls. *)
Lemma dispatch_all_takes_each_request_once_witness :
  let nd := {| queue := requests_at 0 [70; 20; 45]; head_position := 30 |} in
  exists out,
    Permutation out (queue nd) /\
    snd (dispatch_all 0 4 (attached nd [] [])) =
    attached {| queue := [];
                head_position := last (map blk_rq_pos out) (head_position nd) |}
      ([] ++ out) ([] ++ map dsp_line out).
Proof.
  intros nd. apply (dispatch_all_takes_each_request_once nd [] [] 0 4).
  simpl. lia.
Defined.

(** X7.  First come, first served at one location: when all pending
    requests start at the same sector, the dispatch loop hands them over
    in the order they were queued, wherever the head is. *)
Theorem one_location_is_first_come_first_served
    (nd : sstf_data) (dl : list request) (log : list kmsg) (force : Z)
    (fuel : nat) (p : Z) :
  (length (queue nd) <= fuel)%nat ->
  (forall r, In r (queue nd) -> blk_rq_pos r = p) ->
  queue_head (snd (dispatch_all force fuel (attached nd dl log)))
  = dl ++ queue nd.
Proof.
  intros Hlen Hp.
  destruct (dispatch_all_drains force fuel nd dl log Hlen) as (out & Hd & Hrun).
  rewrite Hrun. simpl. f_equal.
  now apply (drains_one_location nd out Hd p).
Qed.

(** The theorem at three requests for sector 64, head at 1000. *)
Lemma one_location_is_first_come_first_served_witness :
  let nd := {| queue := requests_at 0 [64; 64; 64]; head_position := 1000 |} in
  queue_head (snd (dispatch_all 0 3 (attached nd [] [])))
  = [] ++ queue nd.
Proof.
  intros nd.
  apply (one_location_is_first_come_first_served nd [] [] 0 3 64).
  - simpl. lia.
  - simpl. intros r [<- | [<- | [<- | []]]]; reflexivity.
Defined.

(** X8.  Upward sweep: when the head and the pending locations are at
    most 2^63 and no pending request lies below the head, the dispatch
    loop hands the requests over in ascending order of location. *)
Theorem requests_above_head_leave_in_ascending_order
    (nd : sstf_data) (dl : list request) (log : list kmsg) (force : Z)
    (fuel : nat) :
  (length (queue nd) <= fuel)%nat ->
  within_half nd ->
  (forall r, In r (queue nd) -> head_position nd <= blk_rq_pos r) ->
  exists out,
    queue_head (snd (dispatch_all force fuel (attached nd dl log)))
    = dl ++ out /\
    Permutation out (queue nd) /\
    nondecreasing (head_position nd :: map blk_rq_pos out).
Proof.
  intros Hlen Hw Hside.
  destruct (dispatch_all_drains force fuel nd dl log Hlen) as (out & Hd & Hrun).
  exists out. split; [now rewrite Hrun|].
  split; [now apply drains_perm|].
  pose proof (drains_sweep (fun x => x) distance_upwards nd out Hd Hw Hside)
    as Hs.
  now rewrite map_id in Hs.
Qed.

(** The theorem at the head on sector 10 and requests at 40, 10, 25. *)
Lemma requests_above_head_leave_in_ascending_order_witness :
  let nd := {| queue := requests_at 0 [40; 10; 25]; head_position := 10 |} in
  exists out,
    queue_head (snd (dispatch_all 0 3 (attached nd [] []))) = [] ++ out /\
    Permutation out (queue nd) /\
    nondecreasing (head_position nd :: map blk_rq_pos out).
Proof.
  intros nd.
  apply (requests_above_head_leave_in_ascending_order nd [] [] 0 3).
  - simpl. lia.
  - split; simpl; [sector_lia|].
    repeat constructor; simpl; sector_lia.
  - simpl. intros r [<- | [<- | [<- | []]]]; simpl; lia.
Defined.

(** X9.  Downward sweep: when the head and the pending locations are at
    most 2^63 and no pending request lies above the head, the dispatch
    loop hands the requests over in descending order of location (the
    negated locations never go down). *)
Theorem requests_below_head_leave_in_descending_order
    (nd : sstf_data) (dl : list request) (log : list kmsg) (force : Z)
    (fuel : nat) :
  (length (queue nd) <= fuel)%nat ->
  within_half nd ->
  (forall r, In r (queue nd) -> blk_rq_pos r <= head_position nd) ->
  exists out,
    queue_head (snd (dispatch_all force fuel (attached nd dl log)))
    = dl ++ out /\
    Permutation out (queue nd) /\
    nondecreasing (map Z.opp (head_position nd :: map blk_rq_pos out)).
Proof.
  intros Hlen Hw Hside.
  destruct (dispatch_all_drains force fuel nd dl log Hlen) as (out & Hd & Hrun).
  exists out. split; [now rewrite Hrun|].
  split; [now apply drains_perm|].
  apply (drains_sweep Z.opp distance_downwards nd out Hd Hw).
  intros r Hr. specialize (Hside r Hr). lia.
Qed.

(** The theorem at the head on sector 90 and requests at 40, 90, 25. *)
Lemma requests_below_head_leave_in_descending_order_witness :
  let nd := {| queue := requests_at 0 [40; 90; 25]; head_position := 90 |} in
  exists out,
    queue_head (snd (dispatch_all 0 3 (attached nd [] []))) = [] ++ out /\
    Permutation out (queue nd) /\
    nondecreasing (map Z.opp (head_position nd :: map blk_rq_pos out)).
Proof.
  intros nd.
  apply (requests_below_head_leave_in_descending_order nd [] [] 0 3).
  - simpl. lia.
  - split; simpl; [sector_lia|].
    repeat constructor; simpl; sector_lia.
  - simpl. intros r [<- | [<- | [<- | []]]]; simpl; lia.
Defined.

(** X10.  The kernel log of a whole run: after a successful
    [sstf_init_queue], adding the requests [rqs] and dispatching until
    idle, the log has gained one add line per request in submission
    order, followed by one dispatch line per request in dispatch order;
    the dispatch list has gained the same requests in dispatch order and
    the head rests on the location of the last line. *)
Theorem log_of_a_whole_run
    (q : request_queue) (rqs : list request) (force : Z) :
  exists q1 out,
    add_all (snd (sstf_init_queue q true true)) rqs = Some q1 /\
    Permutation out rqs /\
    queue_head (snd (dispatch_all force (S (length rqs)) q1))
    = queue_head q ++ out /\
    klog (snd (dispatch_all force (S (length rqs)) q1))
    = klog q ++ map add_line rqs ++ map dsp_line out /\
    sched_data (snd (dispatch_all force (S (length rqs)) q1))
    = Some {| queue := [];
              head_position := last (map blk_rq_pos out) 0 |}.
Proof.
  set (nd := {| queue := rqs; head_position := 0 |}).
  destruct (dispatch_all_drains force (S (length rqs)) nd (queue_head q)
              (klog q ++ map add_line rqs))
    as (out & Hd & Hrun).
  { simpl. lia. }
  exists (attached nd (queue_head q) (klog q ++ map add_line rqs)), out.
  split; [apply init_add_all|].
  split; [exact (drains_perm nd out Hd)|].
  rewrite Hrun.
  split; [reflexivity|].
  split; [symmetry; apply app_assoc | reflexivity].
Qed.

(** X11.  Life cycle: right after a successful [sstf_init_queue] the
    teardown passes; with requests added and not yet dispatched it hits
    the BUG; once the dispatch loop has run it passes again. *)
Theorem exit_passes_only_when_drained
    (q : request_queue) (rqs : list request) (force : Z) :
  exit_of (snd (sstf_init_queue q true true)) = Some Exit_freed /\
  exists q1,
    add_all (snd (sstf_init_queue q true true)) rqs = Some q1 /\
    (rqs <> [] -> exit_of q1 = Some Exit_BUG) /\
    exit_of (snd (dispatch_all force (S (length rqs)) q1)) = Some Exit_freed.
Proof.
  split; [reflexivity|].
  set (nd := {| queue := rqs; head_position := 0 |}).
  destruct (dispatch_all_drains force (S (length rqs)) nd (queue_head q)
              (klog q ++ map add_line rqs))
    as (out & Hd & Hrun).
  { simpl. lia. }
  exists (attached nd (queue_head q) (klog q ++ map add_line rqs)).
  split; [apply init_add_all|].
  split.
  - intros Hne. destruct rqs as [| r rqs]; [congruence | reflexivity].
  - rewrite Hrun. reflexivity.
Qed.

(** X12.  [sstf_merged_requests] is safe to repeat.  When the
    scheduler's queue and the dispatch list are duplicate-free and [next]
    is not on both, a second call for the same [next] changes nothing
    more.  A call for a request that is not pending takes it off the
    dispatch list and leaves the scheduler's queue, the head position and
    the log alone; when it is on neither list the request queue is left
    exactly as it was. *)
Theorem merged_requests_again_is_harmless
    (nd : sstf_data) (dl : list request) (log : list kmsg)
    (rq rq' next : request) :
  NoDup (queue nd) ->
  NoDup dl ->
  (In next (queue nd) -> ~ In next dl) ->
  sstf_merged_requests
    (sstf_merged_requests (attached nd dl log) rq next) rq' next
  = sstf_merged_requests (attached nd dl log) rq next /\
  (~ In next (queue nd) ->
   sstf_merged_requests (attached nd dl log) rq next
   = attached nd (list_del_init next dl) log) /\
  (~ In next (queue nd) -> ~ In next dl ->
   sstf_merged_requests (attached nd dl log) rq next = attached nd dl log).
Proof.
  intros Hnd Hdl Hone. split; [|split].
  - destruct (in_dec request_eq_dec next (queue nd)) as [Hin | Hn].
    + rewrite (merged_requests_pending nd dl log rq next Hin).
      rewrite merged_requests_not_pending
        by (simpl; now apply list_del_init_gone).
      now rewrite (list_del_init_absent next dl (Hone Hin)).
    + rewrite (merged_requests_not_pending nd dl log rq next Hn).
      rewrite (merged_requests_not_pending nd _ log rq' next Hn).
      now rewrite (list_del_init_absent next (list_del_init next dl))
        by now apply list_del_init_gone.
  - intros Hn. now apply merged_requests_not_pending.
  - intros Hn Hd.
    rewrite (merged_requests_not_pending nd dl log rq next Hn).
    now rewrite (list_del_init_absent next dl Hd).
Qed.

(** The theorem at a queue of two requests and a call for a third
    request that sits on the dispatch list. *)
Lemma merged_requests_again_is_harmless_witness :
  let a := mkRequest 1 16 in
  let b := mkRequest 2 24 in
  let c := mkRequest 3 40 in
  let nd := {| queue := [a; b]; head_position := 0 |} in
  sstf_merged_requests
    (sstf_merged_requests (attached nd [c] []) a c) a c
  = sstf_merged_requests (attached nd [c] []) a c /\
  (~ In c (queue nd) ->
   sstf_merged_requests (attached nd [c] []) a c
   = attached nd (list_del_init c [c]) []) /\
  (~ In c (queue nd) -> ~ In c [c] ->
   sstf_merged_requests (attached nd [c] []) a c = attached nd [c] []).
Proof.
  intros a b c nd. apply (merged_requests_again_is_harmless nd [c] [] a a c).
  - simpl. constructor.
    + intros [H | []]. discriminate H.
    + constructor; [intros [] | constructor].
  - constructor; [intros [] | constructor].
  - simpl. intros [H | [H | []]]; discriminate H.
Defined.

(** X13.  A merged request is never dispatched: after
    [sstf_merged_requests] unlinked a pending [next] from a
    duplicate-free queue, the dispatch loop appends exactly the other
    pending requests to the dispatch list and [next] is not among them. *)
Theorem merged_request_is_never_dispatched
    (nd : sstf_data) (dl : list request) (log : list kmsg) (force : Z)
    (fuel : nat) (rq next : request) :
  NoDup (queue nd) ->
  In next (queue nd) ->
  (length (queue nd) <= fuel)%nat ->
  exists out,
    queue_head
      (snd (dispatch_all force fuel
              (sstf_merged_requests (attached nd dl log) rq next)))
    = dl ++ out /\
    Permutation out (list_del_init next (queue nd)) /\
    ~ In next out.
Proof.
  intros Hnd Hpending Hlen.
  rewrite (merged_requests_pending nd dl log rq next Hpending).
  set (nd1 := {| queue := list_del_init next (queue nd);
                 head_position := head_position nd |}).
  destruct (dispatch_all_drains force fuel nd1 dl log) as (out & Hd & Hrun).
  { simpl. pose proof (list_del_init_shorter next (queue nd)). lia. }
  pose proof (drains_perm nd1 out Hd) as Hperm.
  exists out. split; [now rewrite Hrun|].
  split; [exact Hperm|].
  intros Hin. apply (list_del_init_gone next (queue nd) Hnd).
  exact (Permutation_in next Hperm Hin).
Qed.

(** The theorem at three requests, the middle one merged into the first. *)
Lemma merged_request_is_never_dispatched_witness :
  let a := mkRequest 1 16 in
  let b := mkRequest 2 24 in
  let c := mkRequest 3 5 in
  let nd := {| queue := [a; b; c]; head_position := 0 |} in
  exists out,
    queue_head
      (snd (dispatch_all 0 3
              (sstf_merged_requests (attached nd [] []) a b)))
    = [] ++ out /\
    Permutation out (list_del_init b (queue nd)) /\
    ~ In b out.
Proof.
  intros a b c nd.
  apply (merged_request_is_never_dispatched nd [] [] 0 3 a b).
  - simpl. repeat constructor; simpl.
    + intros [H | [H | []]]; discriminate H.
    + intros [H | []]. discriminate H.
    + intros [].
  - simpl. right. left. reflexivity.
  - simpl. lia.
Defined.

(** X14.  The computed distance is the distance on the ring of 2^64
    sectors: with [x] the wrapped difference of the two positions, the
    smaller of [x] and [2^64 - x], whatever the two positions are. *)
Theorem distance_is_the_ring_distance (head : Z) (rq : request) :
  distance head rq =
  Z.min (Sector.sub (blk_rq_pos rq) head)
        (Sector.modulus - Sector.sub (blk_rq_pos rq) head).
Proof.
  unfold distance, Sector.sub.
  pose proof (wrap_range (blk_rq_pos rq - head)) as R.
  rewrite stored_abs by exact R.
  destruct (Z.leb_spec (Sector.wrap (blk_rq_pos rq - head)) Sector.half);
    sector_lia.
Qed.

(** X15.  The computed distance is a metric on sectors modulo 2^64: it is
    the same in both directions, it is 0 exactly between equal sectors,
    and going through a third request is never shorter. *)
Theorem distance_is_a_metric (ra rb rc : request) :
  distance (blk_rq_pos ra) rb = distance (blk_rq_pos rb) ra /\
  (distance (blk_rq_pos ra) rb = 0 <->
   Sector.wrap (blk_rq_pos ra) = Sector.wrap (blk_rq_pos rb)) /\
  distance (blk_rq_pos ra) rc <=
  distance (blk_rq_pos ra) rb + distance (blk_rq_pos rb) rc.
Proof.
  rewrite !distance_ring. split; [apply ring_distance_sym|]. split.
  - rewrite ring_distance_zero. split; congruence.
  - rewrite (ring_distance_sym (blk_rq_pos rc) (blk_rq_pos ra)),
      (ring_distance_sym (blk_rq_pos rb) (blk_rq_pos ra)),
      (ring_distance_sym (blk_rq_pos rc) (blk_rq_pos rb)).
    apply ring_distance_triangle.
Qed.

(** X16.  One success per pending request: called [n + m] times on a
    queue of [n] pending requests, [sstf_dispatch] returns 1 the first
    [n] times and 0 the [m] times after, and never faults; the queue is
    empty at the end. *)
Theorem dispatch_returns_one_per_request
    (nd : sstf_data) (dl : list request) (log : list kmsg) (force : Z)
    (m : nat) :
  exists qf nd',
    dispatch_times force (length (queue nd) + m) (attached nd dl log) =
    Some (repeat 1 (length (queue nd)) ++ repeat 0 m, qf) /\
    sched_data qf = Some nd' /\
    queue nd' = [].
Proof.
  destruct (dispatch_times_pending force m (length (queue nd)) nd dl log
              eq_refl)
    as (nd' & dl' & log' & Hrun & Hq).
  exists (attached nd' dl' log'), nd'.
  split; [exact Hrun|]. split; [reflexivity | exact Hq].
Qed.
